(** * svg: a shallow embedding of svg.h / svg.cpp

    The library builds a document out of circles, polylines and texts and
    serialises it to a [std::ostream].  The embedding keeps the shape of the
    C++ code: one module per class, the members under their own names, and
    every [out << ...] as a write to an explicit store of output streams. *)

From Stdlib Require Import ZArith List String Ascii Bool Lia DecimalString.
From Equations Require Import Equations.
Import ListNotations.

Local Open Scope string_scope.
Local Open Scope Z_scope.

(** ** Characters and strings *)

(** The double quote character of the C++ literals, code 34. *)
Definition dquote : ascii := "034"%char.
Definition dq : string := String dquote "".

(** The line feed that [std::endl] inserts. *)
Definition endl : string := String "010"%char "".

Fixpoint spaces (n : nat) : string :=
  match n with
  | O => ""
  | S n' => String " "%char (spaces n')
  end.

(** ** Output streams

    A [std::ostream&] is a reference: a render context and its caller see
    the same stream.  A stream is therefore named by a handle, and the
    characters every stream has received so far are kept in a store. *)

Definition ostream := nat.
Definition Sinks := ostream -> string.

(** [out << s] and [out.put(c)]: append to the stream named [out]. *)
Definition put (out : ostream) (s : string) (sigma : Sinks) : Sinks :=
  fun k => if Nat.eqb k out then sigma k ++ s else sigma k.

(** Statement sequencing. *)
Definition seq (f g : Sinks -> Sinks) : Sinks -> Sinks :=
  fun sigma => g (f sigma).
Infix ">>" := seq (at level 61, left associativity).

Definition skip : Sinks -> Sinks := fun sigma => sigma.

(** [writes out s f]: the statement [f] appends exactly [s] to [out] and
    leaves every other stream as it was. *)
Definition writes (out : ostream) (s : string) (f : Sinks -> Sinks) : Prop :=
  forall sigma k, f sigma k = if Nat.eqb k out then sigma k ++ s else sigma k.

(** A store in which nothing has been written yet. *)
Definition fresh : Sinks := fun _ => "".

(** ** Machine integers

    [int] is 32 bits wide.  Signed overflow is undefined in C++; the model
    takes the two's complement result of the usual targets. *)

Definition INT_MIN : Z := - 2 ^ 31.
Definition INT_MAX : Z := 2 ^ 31 - 1.
Definition is_int (z : Z) : Prop := INT_MIN <= z <= INT_MAX.
Definition wrap_int (z : Z) : Z := (z + 2 ^ 31) mod 2 ^ 32 - 2 ^ 31.

(** [uint32_t]: an argument is reduced modulo 2^32 on the way in. *)
Definition wrap_uint32 (n : N) : N := (n mod 2 ^ 32)%N.

(** ** Reals

    [double] values are only stored and printed.  The text that
    [out << d] inserts is the standard library's business, so the type and
    its formatter are an interface; [of_Z] gives the integer-valued
    literals of the source ([0], [0.0], [1.0]). *)

Class Double := {
  double : Type;
  of_Z : Z -> double;
  print_double : double -> string
}.

(** Integer-valued doubles.  For magnitudes below 10^6 the default stream
    format prints them as plain decimal integers. *)
Definition print_Z (z : Z) : string := NilEmpty.string_of_int (Z.to_int z).

Definition ZDouble : Double :=
  {| double := Z; of_Z := fun z => z; print_double := print_Z |}.

(** [out << n] for an unsigned integer. *)
Definition print_N (n : N) : string := NilEmpty.string_of_uint (N.to_uint n).

(** ** struct Point *)

Module Point.
Section WithDouble.
Context {D : Double}.

Record t := Make { x : double; y : double }.

(** [Point() = default] with [double x = 0; double y = 0]. *)
Definition default : t := {| x := of_Z 0; y := of_Z 0 |}.
End WithDouble.
Arguments t {D}.
End Point.

(** ** struct RenderContext *)

Module RenderContext.

Record t := Make { out : ostream; indent_step : Z; indent : Z }.

(** [RenderContext(std::ostream& out)]: both integers keep their default
    member initialiser [0]. *)
Definition of_ostream (o : ostream) : t :=
  {| out := o; indent_step := 0; indent := 0 |}.

(** [RenderContext(std::ostream& out, int indent_step, int indent = 0)]. *)
Definition make (o : ostream) (step : Z) (ind : Z) : t :=
  {| out := o; indent_step := step; indent := ind |}.

(** [return {out, indent_step, indent + indent_step};] *)
Definition Indented (c : t) : t :=
  make (out c) (indent_step c) (wrap_int (indent c + indent_step c)).

(** [for (int i = 0; i < indent; ++i) out.put(' ');]
    The loop from counter [i] on.  Inside the body [i < indent], so
    [++i] stays in range and is written without wrap-around. *)
Equations? RenderIndent_from (c : t) (i : Z) (sigma : Sinks) : Sinks
  by wf (Z.to_nat (indent c - i)) lt :=
  RenderIndent_from c i sigma with Z_lt_dec i (indent c) => {
    | left _ := RenderIndent_from c (i + 1) (put (out c) " " sigma);
    | right _ := sigma }.
Proof. lia. Qed.

Definition RenderIndent (c : t) : Sinks -> Sinks :=
  RenderIndent_from c 0.

End RenderContext.

(** ** class Circle *)

Module Circle.
Section WithDouble.
Context {D : Double}.

(** [Point center_ = { 0.0, 0.0 }; double radius_ = 1.0;] *)
Record t := Make { center_ : Point.t; radius_ : double }.

Definition default : t :=
  {| center_ := Point.Make (of_Z 0) (of_Z 0); radius_ := of_Z 1 |}.

(** [center_ = center; return *this;] *)
Definition SetCenter (center : Point.t) (self : t) : t :=
  {| center_ := center; radius_ := radius_ self |}.

(** [radius_ = radius; return *this;] *)
Definition SetRadius (radius : double) (self : t) : t :=
  {| center_ := center_ self; radius_ := radius |}.

(** The body is the same in svg.h and in svg.cpp: three statements, the
    first two ending in a quote followed by a space. *)
Definition RenderObject (self : t) (context : RenderContext.t)
  : Sinks -> Sinks :=
  let out := RenderContext.out context in
  (put out ("<circle cx=" ++ dq)
     >> put out (print_double (Point.x (center_ self)))
     >> put out (dq ++ " cy=" ++ dq)
     >> put out (print_double (Point.y (center_ self)))
     >> put out (dq ++ " "))
  >> (put out ("r=" ++ dq)
        >> put out (print_double (radius_ self))
        >> put out (dq ++ " "))
  >> put out "/>".
End WithDouble.
Arguments t {D}.
End Circle.

(** ** class Polyline *)

Module Polyline.
Section WithDouble.
Context {D : Double}.

(** [std::vector <Point> all_point_;] *)
Record t := Make { all_point_ : list Point.t }.

Definition default : t := {| all_point_ := [] |}.

(** [all_point_.push_back(point); return *this;] *)
Definition AddPoint (point : Point.t) (self : t) : t :=
  {| all_point_ := all_point_ self ++ [point] |}.

(** [for (const Point& point: all_point_)
       out << point.x << "," << point.y << " ";] *)
Fixpoint RenderPoints (out : ostream) (points : list Point.t)
  : Sinks -> Sinks :=
  match points with
  | [] => skip
  | point :: rest =>
      put out (print_double (Point.x point))
        >> put out ","
        >> put out (print_double (Point.y point))
        >> put out " "
        >> RenderPoints out rest
  end.

(** The first literal is [polyline points=] and a quote; the last
    statement writes [/>] right after the loop. *)
Definition RenderObject (self : t) (context : RenderContext.t)
  : Sinks -> Sinks :=
  let out := RenderContext.out context in
  put out ("polyline points=" ++ dq)
    >> RenderPoints out (all_point_ self)
    >> put out "/>".

(** The attribute value in the words of the spec: the points in insertion
    order, each as [x,y] followed by one space. *)
Fixpoint points_text (points : list Point.t) : string :=
  match points with
  | [] => ""
  | point :: rest =>
      print_double (Point.x point) ++ "," ++ print_double (Point.y point)
        ++ " " ++ points_text rest
  end.
End WithDouble.
Arguments t {D}.
End Polyline.

(** ** XML escaping *)

(** One substitution pass: every [c] in [s] becomes [r]. *)
Fixpoint replace_char (c : ascii) (r : string) (s : string) : string :=
  match s with
  | "" => ""
  | String a s' =>
      (if Ascii.eqb a c then r else String a "") ++ replace_char c r s'
  end.

(** Modelled from the spec: the escaping of text content and of string
    attributes, for which the source has no function.  The five
    substitutions of section 4.3, applied one after the other in the order
    given there: ampersand, less-than, greater-than, double quote,
    apostrophe. *)
Definition escape (s : string) : string :=
  replace_char "'"%char "&apos;"
    (replace_char dquote "&quot;"
       (replace_char ">"%char "&gt;"
          (replace_char "<"%char "&lt;"
             (replace_char "&"%char "&amp;" s)))).

(** ** class Text *)

Module Text.
Section WithDouble.
Context {D : Double}.

(** Modelled from the spec: the data members of [Text], which svg.h does
    not declare.  The names are the ones the setters of svg.cpp assign
    to; the types and the defaults are those of section 3: position and
    offset (0, 0), font size 1, family and weight absent, empty data. *)
Record t := Make {
  pos_ : Point.t;
  offset_ : Point.t;
  font_size : N;
  font_family_ : option string;
  font_weight_ : option string;
  data_ : string
}.

Definition default : t :=
  {| pos_ := Point.Make (of_Z 0) (of_Z 0);
     offset_ := Point.Make (of_Z 0) (of_Z 0);
     font_size := 1;
     font_family_ := None;
     font_weight_ := None;
     data_ := "" |}.

(** [pos_ = pos; return *this;] *)
Definition SetPosition (pos : Point.t) (self : t) : t :=
  {| pos_ := pos; offset_ := offset_ self; font_size := font_size self;
     font_family_ := font_family_ self; font_weight_ := font_weight_ self;
     data_ := data_ self |}.

(** [offset_ = offset; return *this;] *)
Definition SetOffset (offset : Point.t) (self : t) : t :=
  {| pos_ := pos_ self; offset_ := offset; font_size := font_size self;
     font_family_ := font_family_ self; font_weight_ := font_weight_ self;
     data_ := data_ self |}.

(** [font_size = size; return *this;] with [uint32_t size]. *)
Definition SetFontSize (size : N) (self : t) : t :=
  {| pos_ := pos_ self; offset_ := offset_ self;
     font_size := wrap_uint32 size;
     font_family_ := font_family_ self; font_weight_ := font_weight_ self;
     data_ := data_ self |}.

(** [font_family_ = font_family; return *this;] *)
Definition SetFontFamily (font_family : string) (self : t) : t :=
  {| pos_ := pos_ self; offset_ := offset_ self; font_size := font_size self;
     font_family_ := Some font_family; font_weight_ := font_weight_ self;
     data_ := data_ self |}.

(** [font_weight_ = font_weight; return *this;] *)
Definition SetFontWeight (font_weight : string) (self : t) : t :=
  {| pos_ := pos_ self; offset_ := offset_ self; font_size := font_size self;
     font_family_ := font_family_ self; font_weight_ := Some font_weight;
     data_ := data_ self |}.

(** [data_ = data; return *this;] *)
Definition SetData (data : string) (self : t) : t :=
  {| pos_ := pos_ self; offset_ := offset_ self; font_size := font_size self;
     font_family_ := font_family_ self; font_weight_ := font_weight_ self;
     data_ := data |}.

(** Modelled from the spec: the bracketed attributes of the text element,
    which the source does not render.  An attribute is written, with its
    value escaped, only when its member holds a value. *)
Definition RenderOptional (out : ostream) (name : string)
  (value : option string) : Sinks -> Sinks :=
  match value with
  | None => skip
  | Some v =>
      put out (" " ++ name ++ "=" ++ dq) >> put out (escape v) >> put out dq
  end.

(** Modelled from the spec: [Text::RenderObject], which the source
    neither declares nor defines.  The element of section 4.3: the four
    coordinates and the font size, then the family and the weight when
    present, then the escaped content between the tags. *)
Definition RenderObject (self : t) (context : RenderContext.t)
  : Sinks -> Sinks :=
  let out := RenderContext.out context in
  put out ("<text x=" ++ dq)
    >> put out (print_double (Point.x (pos_ self)))
    >> put out (dq ++ " y=" ++ dq)
    >> put out (print_double (Point.y (pos_ self)))
    >> put out (dq ++ " dx=" ++ dq)
    >> put out (print_double (Point.x (offset_ self)))
    >> put out (dq ++ " dy=" ++ dq)
    >> put out (print_double (Point.y (offset_ self)))
    >> put out (dq ++ " font-size=" ++ dq)
    >> put out (print_N (font_size self))
    >> put out dq
    >> RenderOptional out "font-family" (font_family_ self)
    >> RenderOptional out "font-weight" (font_weight_ self)
    >> put out ">"
    >> put out (escape (data_ self))
    >> put out "</text>".

(** The element in the words of the spec, piece by piece: the attributes
    that are always there, an optional attribute, the whole element. *)
Definition attributes_text (self : t) : string :=
  "<text x=" ++ dq ++ print_double (Point.x (pos_ self)) ++ dq
    ++ " y=" ++ dq ++ print_double (Point.y (pos_ self)) ++ dq
    ++ " dx=" ++ dq ++ print_double (Point.x (offset_ self)) ++ dq
    ++ " dy=" ++ dq ++ print_double (Point.y (offset_ self)) ++ dq
    ++ " font-size=" ++ dq ++ print_N (font_size self) ++ dq.

Definition optional_text (name : string) (value : option string) : string :=
  match value with
  | None => ""
  | Some v => " " ++ name ++ "=" ++ dq ++ escape v ++ dq
  end.

Definition element_text (self : t) : string :=
  attributes_text self
    ++ optional_text "font-family" (font_family_ self)
    ++ optional_text "font-weight" (font_weight_ self)
    ++ ">" ++ escape (data_ self) ++ "</text>".
End WithDouble.
Arguments t {D}.
End Text.

(** ** class Object *)

Module Object.
Section WithDouble.
Context {D : Double}.

(** The classes derived from [Object]. *)
Inductive t :=
| OfCircle (c : Circle.t)
| OfPolyline (p : Polyline.t)
| OfText (x : Text.t).

(** The virtual call [RenderObject(context)]. *)
Definition RenderObject (self : t) (context : RenderContext.t)
  : Sinks -> Sinks :=
  match self with
  | OfCircle c => Circle.RenderObject c context
  | OfPolyline p => Polyline.RenderObject p context
  | OfText x => Text.RenderObject x context
  end.

(** [context.RenderIndent(); RenderObject(context);
     context.out << std::endl;] *)
Definition Render (self : t) (context : RenderContext.t) : Sinks -> Sinks :=
  RenderContext.RenderIndent context
    >> RenderObject self context
    >> put (RenderContext.out context) endl.

(** The characters [RenderObject] writes for [self]: its element. *)
Definition element (self : t) : string :=
  RenderObject self (RenderContext.of_ostream 0%nat) fresh 0%nat.
End WithDouble.
Arguments t {D}.
End Object.

(** ** class Document *)

Module Document.
Section WithDouble.
Context {D : Double}.

(** [all_obj_] is the declared member, the one [Render] walks.
    [objects_] is the container [Add] appends to; svg.h declares no
    member of that name, it is a second sequence here. *)
Record t := Make {
  all_obj_ : list Object.t;
  objects_ : list Object.t
}.

Definition default : t := {| all_obj_ := []; objects_ := [] |}.

(** [objects_.emplace_back(std::make_unique<Obj>(std::move(obj)));] *)
Definition Add (obj : Object.t) (self : t) : t :=
  {| all_obj_ := all_obj_ self; objects_ := objects_ self ++ [obj] |}.

(** [for (const auto& i : all_obj_) i->Render(out);]
    [Object::Render] takes a [RenderContext]; the stream converts to one
    through the one-argument constructor. *)
Fixpoint RenderAll (objs : list Object.t) (out : ostream)
  : Sinks -> Sinks :=
  match objs with
  | [] => skip
  | i :: rest =>
      Object.Render i (RenderContext.of_ostream out) >> RenderAll rest out
  end.

Definition Render (self : t) (out : ostream) : Sinks -> Sinks :=
  RenderAll (all_obj_ self) out.

(** The document of section 4.4, following the words of the spec: the
    prologue line, the root open line, every child on a line of its own
    behind [indent_step] spaces, the root close line. *)
Definition prologue : string :=
  "<?xml version=" ++ dq ++ "1.0" ++ dq ++ " encoding=" ++ dq ++ "UTF-8"
    ++ dq ++ " ?>" ++ endl.
Definition root_open : string :=
  "<svg xmlns=" ++ dq ++ "http://www.w3.org/2000/svg" ++ dq ++ " version="
    ++ dq ++ "1.1" ++ dq ++ ">" ++ endl.
Definition root_close : string := "</svg>" ++ endl.

Fixpoint child_lines (indent_step : nat) (children : list Object.t)
  : string :=
  match children with
  | [] => ""
  | c :: rest =>
      spaces indent_step ++ Object.element c ++ endl
        ++ child_lines indent_step rest
  end.

Definition Render_spec (indent_step : nat) (children : list Object.t)
  : string :=
  prologue ++ root_open ++ child_lines indent_step children ++ root_close.
End WithDouble.
Arguments t {D}.
End Document.

(** ** Client programs

    A caller owns a document and a set of streams and issues [doc.Add(obj)]
    and [doc.Render(out)] one after the other.  [Add] replaces the
    document; [Render] is a [const] member and only touches the streams. *)

Module Client.
Section WithDouble.
Context {D : Double}.

Record World := MakeWorld { doc : Document.t; sinks : Sinks }.

Inductive call :=
| Add (obj : Object.t)
| Render (out : ostream).

Definition exec (c : call) (w : World) : World :=
  match c with
  | Add obj => {| doc := Document.Add obj (doc w); sinks := sinks w |}
  | Render out =>
      {| doc := doc w; sinks := Document.Render (doc w) out (sinks w) |}
  end.

Definition run (cs : list call) (w : World) : World :=
  fold_left (fun w c => exec c w) cs w.

(** [Document doc;] in front of untouched streams. *)
Definition start : World := {| doc := Document.default; sinks := fresh |}.

(** The objects a sequence of calls hands to [Add], in order. *)
Fixpoint added (cs : list call) : list Object.t :=
  match cs with
  | [] => []
  | Add obj :: rest => obj :: added rest
  | Render _ :: rest => added rest
  end.
End WithDouble.
End Client.

(** ** The fluent setters

    Every member that configures a shape and returns [*this], by name, and
    a call of one of them on an object of the hierarchy.  A call is only
    defined when the member belongs to the class of the object and the
    argument has the parameter's type. *)

Module Setter.
Section WithDouble.
Context {D : Double}.

Inductive name :=
| SetCenter | SetRadius
| AddPoint
| SetPosition | SetOffset | SetFontSize | SetFontFamily | SetFontWeight
| SetData.

Inductive arg :=
| APoint (p : Point.t)
| ADouble (d : double)
| AUint32 (n : N)
| AString (s : string).

Definition call (m : name) (a : arg) (o : Object.t) : option Object.t :=
  match m, a, o with
  | SetCenter, APoint p, Object.OfCircle c =>
      Some (Object.OfCircle (Circle.SetCenter p c))
  | SetRadius, ADouble r, Object.OfCircle c =>
      Some (Object.OfCircle (Circle.SetRadius r c))
  | AddPoint, APoint p, Object.OfPolyline l =>
      Some (Object.OfPolyline (Polyline.AddPoint p l))
  | SetPosition, APoint p, Object.OfText x =>
      Some (Object.OfText (Text.SetPosition p x))
  | SetOffset, APoint p, Object.OfText x =>
      Some (Object.OfText (Text.SetOffset p x))
  | SetFontSize, AUint32 n, Object.OfText x =>
      Some (Object.OfText (Text.SetFontSize n x))
  | SetFontFamily, AString s, Object.OfText x =>
      Some (Object.OfText (Text.SetFontFamily s x))
  | SetFontWeight, AString s, Object.OfText x =>
      Some (Object.OfText (Text.SetFontWeight s x))
  | SetData, AString s, Object.OfText x =>
      Some (Object.OfText (Text.SetData s x))
  | _, _, _ => None
  end.

(** A chain [o.m1(a1).m2(a2)...]. *)
Fixpoint chain (cs : list (name * arg)) (o : Object.t) : option Object.t :=
  match cs with
  | [] => Some o
  | (m, a) :: rest =>
      match call m a o with
      | Some o' => chain rest o'
      | None => None
      end
  end.

(** Whether [m] occurs in a chain. *)
Definition name_eqb (m1 m2 : name) : bool :=
  match m1, m2 with
  | SetCenter, SetCenter | SetRadius, SetRadius | AddPoint, AddPoint
  | SetPosition, SetPosition | SetOffset, SetOffset
  | SetFontSize, SetFontSize | SetFontFamily, SetFontFamily
  | SetFontWeight, SetFontWeight | SetData, SetData => true
  | _, _ => false
  end.

Definition called (m : name) (cs : list (name * arg)) : bool :=
  existsb (fun c => name_eqb m (fst c)) cs.

(** The value the last fitting call of a chain passes: [sel] picks the
    calls that count and their value. *)
Fixpoint last_with {A : Type} (sel : name -> arg -> option A)
  (cs : list (name * arg)) : option A :=
  match cs with
  | [] => None
  | (m, a) :: rest =>
      match last_with sel rest with
      | Some v => Some v
      | None => sel m a
      end
  end.

(** The argument of a call of [m0], by parameter type. *)
Definition point_of (m0 m : name) (a : arg) : option Point.t :=
  match a with
  | APoint p => if name_eqb m0 m then Some p else None
  | _ => None
  end.

Definition double_of (m0 m : name) (a : arg) : option double :=
  match a with
  | ADouble d => if name_eqb m0 m then Some d else None
  | _ => None
  end.

Definition uint32_of (m0 m : name) (a : arg) : option N :=
  match a with
  | AUint32 n => if name_eqb m0 m then Some n else None
  | _ => None
  end.

Definition string_of (m0 m : name) (a : arg) : option string :=
  match a with
  | AString s => if name_eqb m0 m then Some s else None
  | _ => None
  end.

(** [v] when there is one, [d] otherwise. *)
Definition or_else {A : Type} (v : option A) (d : A) : A :=
  match v with
  | Some a => a
  | None => d
  end.
End WithDouble.
End Setter.

(** ** What an escaped string looks like *)

(** The escape of one character. *)
Definition escape_char (a : ascii) : string :=
  if Ascii.eqb a "&" then "&amp;"
  else if Ascii.eqb a "<" then "&lt;"
  else if Ascii.eqb a ">" then "&gt;"
  else if Ascii.eqb a dquote then "&quot;"
  else if Ascii.eqb a "'" then "&apos;"
  else String a "".

(** Every character replaced by its escape, in one pass. *)
Fixpoint escape_each (s : string) : string :=
  match s with
  | "" => ""
  | String a s' => escape_char a ++ escape_each s'
  end.

(** [s] starts with one of the five escapes. *)
Definition starts_escape (s : string) : bool :=
  prefix "&amp;" s || prefix "&lt;" s || prefix "&gt;" s
  || prefix "&quot;" s || prefix "&apos;" s.

(** No raw special character in [s]: none of less-than, greater-than,
    double quote and apostrophe occurs, and every ampersand opens one of
    the five escapes. *)
Fixpoint no_raw_special (s : string) : bool :=
  match s with
  | "" => true
  | String a s' =>
      (if Ascii.eqb a "&" then starts_escape s
       else negb (Ascii.eqb a "<" || Ascii.eqb a ">" || Ascii.eqb a dquote
                  || Ascii.eqb a "'"))
      && no_raw_special s'
  end.

(** Whether character [a] occurs in [s]. *)
Fixpoint occurs (a : ascii) (s : string) : bool :=
  match s with
  | "" => false
  | String b s' => Ascii.eqb a b || occurs a s'
  end.

(** * Theorems *)

(** ** Strings and writes *)

Lemma append_nil_r (s : string) : s ++ "" = s.
Proof. induction s as [|a s IH]; simpl; [reflexivity | now rewrite IH]. Qed.

Lemma append_assoc (s1 s2 s3 : string) : (s1 ++ s2) ++ s3 = s1 ++ (s2 ++ s3).
Proof. induction s1 as [|a s1 IH]; simpl; [reflexivity | now rewrite IH]. Qed.

Lemma writes_put out s : writes out s (put out s).
Proof. intros sigma k. reflexivity. Qed.

Lemma writes_skip out : writes out "" skip.
Proof.
  intros sigma k. unfold skip. destruct (Nat.eqb k out); [|reflexivity].
  now rewrite append_nil_r.
Qed.

Lemma writes_seq out s1 s2 f g :
  writes out s1 f -> writes out s2 g -> writes out (s1 ++ s2) (f >> g).
Proof.
  intros Hf Hg sigma k. unfold seq. rewrite (Hg (f sigma) k), (Hf sigma k).
  destruct (Nat.eqb k out); [|reflexivity].
  apply append_assoc.
Qed.

Lemma writes_ext out s s' f : writes out s f -> s = s' -> writes out s' f.
Proof. now intros H <-. Qed.

(** ** RenderContext *)

Lemma RenderIndent_from_writes (c : RenderContext.t) (n : nat) :
  forall i,
    Z.to_nat (RenderContext.indent c - i) = n ->
    writes (RenderContext.out c) (spaces n) (RenderContext.RenderIndent_from c i).
Proof.
  induction n as [|n IH]; intros i Hn sigma k.
  - rewrite RenderContext.RenderIndent_from_equation_1.
    destruct (Z_lt_dec i (RenderContext.indent c)) as [Hlt|Hge]; [lia|].
    simpl. destruct (Nat.eqb k _); [now rewrite append_nil_r | reflexivity].
  - rewrite RenderContext.RenderIndent_from_equation_1.
    destruct (Z_lt_dec i (RenderContext.indent c)) as [Hlt|Hge]; [|lia].
    simpl. rewrite (IH (i + 1)) by lia.
    unfold put. destruct (Nat.eqb k _); [|reflexivity].
    rewrite append_assoc. reflexivity.
Qed.

(** C10.  [RenderIndent] is total on every context the constructor
    accepts: it appends exactly max(indent, 0) spaces to the context's
    stream and touches no other stream; with a negative indent it writes
    nothing. *)
Theorem RenderIndent_writes_max_indent_spaces :
  (forall c : RenderContext.t,
      writes (RenderContext.out c)
        (spaces (Z.to_nat (Z.max (RenderContext.indent c) 0)))
        (RenderContext.RenderIndent c))
  /\ (forall (o : ostream) (step : Z) (p : positive),
         writes o "" (RenderContext.RenderIndent (RenderContext.make o step (Z.neg p)))).
Proof.
  assert (H : forall c : RenderContext.t,
             writes (RenderContext.out c)
               (spaces (Z.to_nat (Z.max (RenderContext.indent c) 0)))
               (RenderContext.RenderIndent c)).
  { intros c. unfold RenderContext.RenderIndent.
    apply RenderIndent_from_writes. lia. }
  split; [exact H|].
  intros o step p. apply (H (RenderContext.make o step (Z.neg p))).
Qed.

(** C9, as stated, fails where the addition leaves the range of [int]:
    step 3 and indent 2147483646 = 3 * 715827882 meet the premises, yet the
    indent of the result is not the sum and not a multiple of 3. *)
Lemma Indented_overflow_counterexample :
  let c := RenderContext.make 0%nat 3 2147483646 in
  is_int (RenderContext.indent_step c)
  /\ is_int (RenderContext.indent c)
  /\ 0 < RenderContext.indent_step c
  /\ (RenderContext.indent_step c | RenderContext.indent c)
  /\ RenderContext.indent (RenderContext.Indented c) = -2147483647
  /\ RenderContext.indent (RenderContext.Indented c)
     <> RenderContext.indent c + RenderContext.indent_step c
  /\ ~ (RenderContext.indent_step (RenderContext.Indented c)
        | RenderContext.indent (RenderContext.Indented c)).
Proof.
  cbv zeta.
  assert (E : RenderContext.indent
                (RenderContext.Indented (RenderContext.make 0%nat 3 2147483646))
              = -2147483647) by reflexivity.
  rewrite E. simpl. unfold is_int, INT_MIN, INT_MAX.
  split; [lia|]. split; [lia|]. split; [lia|].
  split; [exists 715827882; reflexivity|].
  split; [reflexivity|]. split; [lia|].
  intros [k Hk]. lia.
Qed.

(** C9, amended.  When [indent + indent_step] does not exceed [INT_MAX],
    [Indented] returns a context on the same stream, with the same step and
    with indent [indent + indent_step], again a multiple of the step and
    again an [int]. *)
Theorem Indented_adds_one_step (c : RenderContext.t) :
  is_int (RenderContext.indent_step c) ->
  is_int (RenderContext.indent c) ->
  0 < RenderContext.indent_step c ->
  (RenderContext.indent_step c | RenderContext.indent c) ->
  RenderContext.indent c + RenderContext.indent_step c <= INT_MAX ->
  let c' := RenderContext.Indented c in
  RenderContext.out c' = RenderContext.out c
  /\ RenderContext.indent_step c' = RenderContext.indent_step c
  /\ RenderContext.indent c' = RenderContext.indent c + RenderContext.indent_step c
  /\ (RenderContext.indent_step c' | RenderContext.indent c')
  /\ is_int (RenderContext.indent c').
Proof.
  intros Hs Hi Hpos Hdiv Hmax. cbv zeta.
  assert (Hw : wrap_int (RenderContext.indent c + RenderContext.indent_step c)
               = RenderContext.indent c + RenderContext.indent_step c).
  { unfold wrap_int, is_int, INT_MIN, INT_MAX in *.
    rewrite Z.mod_small by lia. lia. }
  unfold RenderContext.Indented. simpl. rewrite Hw.
  repeat split; try (unfold is_int, INT_MIN, INT_MAX in *; lia).
  apply Z.divide_add_r; [assumption | apply Z.divide_refl].
Qed.

Lemma Indented_adds_one_step_witness :
  let c := RenderContext.make 0%nat 2 4 in
  RenderContext.indent (RenderContext.Indented c) = 6
  /\ (2 | RenderContext.indent (RenderContext.Indented c)).
Proof.
  cbv zeta.
  destruct (Indented_adds_one_step (RenderContext.make 0%nat 2 4))
    as (_ & _ & H3 & H4 & _).
  - unfold is_int, INT_MIN, INT_MAX; simpl; lia.
  - unfold is_int, INT_MIN, INT_MAX; simpl; lia.
  - simpl; lia.
  - exists 2. reflexivity.
  - unfold INT_MAX; simpl; lia.
  - split; [exact H3 | exact H4].
Defined.

(** ** Shapes *)

Ltac string_norm :=
  unfold dq, endl; repeat rewrite append_assoc; cbn [append];
  repeat rewrite append_nil_r.

Ltac writes_steps :=
  repeat lazymatch goal with
    | |- writes _ _ (put _ _) => apply writes_put
    | |- writes _ _ skip => apply writes_skip
    | |- writes _ _ (_ >> _) => eapply writes_seq
    end.

Section Shapes.
Context {D : Double}.

Lemma writes_fresh out s f : writes out s f -> f fresh out = s.
Proof. intros H. rewrite (H fresh out), Nat.eqb_refl. reflexivity. Qed.

Lemma Circle_RenderObject_writes (c : Circle.t) (ctx : RenderContext.t) :
  writes (RenderContext.out ctx)
    ("<circle cx=" ++ dq ++ print_double (Point.x (Circle.center_ c)) ++ dq
       ++ " cy=" ++ dq ++ print_double (Point.y (Circle.center_ c)) ++ dq
       ++ " r=" ++ dq ++ print_double (Circle.radius_ c) ++ dq ++ " />")
    (Circle.RenderObject c ctx).
Proof.
  unfold Circle.RenderObject.
  eapply writes_ext; [writes_steps | string_norm; reflexivity].
Qed.

Lemma RenderPoints_writes (out : ostream) (ps : list Point.t) :
  writes out (Polyline.points_text ps) (Polyline.RenderPoints out ps).
Proof.
  induction ps as [|p ps IH]; cbn [Polyline.RenderPoints Polyline.points_text].
  - apply writes_skip.
  - eapply writes_ext; [writes_steps; exact IH | string_norm; reflexivity].
Qed.

Lemma Polyline_RenderObject_writes (l : Polyline.t) (ctx : RenderContext.t) :
  writes (RenderContext.out ctx)
    ("polyline points=" ++ dq ++ Polyline.points_text (Polyline.all_point_ l)
       ++ "/>")
    (Polyline.RenderObject l ctx).
Proof.
  unfold Polyline.RenderObject.
  eapply writes_ext;
    [writes_steps; apply RenderPoints_writes | string_norm; reflexivity].
Qed.

(** [AddPoint] keeps the insertion order. *)
Lemma AddPoint_appends (ps : list Point.t) (l : Polyline.t) :
  Polyline.all_point_ (fold_left (fun l p => Polyline.AddPoint p l) ps l)
  = (Polyline.all_point_ l ++ ps)%list.
Proof.
  revert l. induction ps as [|p ps IH]; intros l; simpl.
  - now rewrite app_nil_r.
  - rewrite IH. simpl. now rewrite <- app_assoc.
Qed.

Lemma RenderOptional_writes (out : ostream) (name : string) (v : option string) :
  writes out (Text.optional_text name v) (Text.RenderOptional out name v).
Proof.
  destruct v as [s|]; cbn [Text.RenderOptional Text.optional_text].
  - eapply writes_ext; [writes_steps | string_norm; reflexivity].
  - apply writes_skip.
Qed.

Lemma Text_RenderObject_writes (x : Text.t) (ctx : RenderContext.t) :
  writes (RenderContext.out ctx) (Text.element_text x) (Text.RenderObject x ctx).
Proof.
  unfold Text.RenderObject, Text.element_text, Text.attributes_text.
  eapply writes_ext.
  - writes_steps; apply RenderOptional_writes.
  - string_norm. reflexivity.
Qed.

(** What [RenderObject] writes depends on the object alone, not on the
    context or on what the streams already hold. *)
Lemma RenderObject_writes_element (o : Object.t) (ctx : RenderContext.t) :
  writes (RenderContext.out ctx) (Object.element o) (Object.RenderObject o ctx).
Proof.
  unfold Object.element.
  destruct o as [c|l|x]; cbn [Object.RenderObject].
  - rewrite (writes_fresh _ _ _
               (Circle_RenderObject_writes c (RenderContext.of_ostream 0%nat))
             : Circle.RenderObject c _ fresh 0%nat = _).
    apply Circle_RenderObject_writes.
  - rewrite (writes_fresh _ _ _
               (Polyline_RenderObject_writes l (RenderContext.of_ostream 0%nat))
             : Polyline.RenderObject l _ fresh 0%nat = _).
    apply Polyline_RenderObject_writes.
  - rewrite (writes_fresh _ _ _
               (Text_RenderObject_writes x (RenderContext.of_ostream 0%nat))
             : Text.RenderObject x _ fresh 0%nat = _).
    apply Text_RenderObject_writes.
Qed.

(** [Object::Render]: the indent, the element, a line feed. *)
Lemma Object_Render_writes (o : Object.t) (ctx : RenderContext.t) :
  writes (RenderContext.out ctx)
    (spaces (Z.to_nat (Z.max (RenderContext.indent ctx) 0))
       ++ Object.element o ++ endl)
    (Object.Render o ctx).
Proof.
  unfold Object.Render.
  eapply writes_ext.
  - eapply writes_seq; [eapply writes_seq|apply writes_put].
    + unfold RenderContext.RenderIndent.
      apply (RenderIndent_from_writes ctx _ 0 eq_refl).
    + apply RenderObject_writes_element.
  - rewrite Z.sub_0_r.
    replace (Z.to_nat (Z.max (RenderContext.indent ctx) 0))
      with (Z.to_nat (RenderContext.indent ctx)) by lia.
    now rewrite append_assoc.
Qed.

Lemma RenderAll_writes (objs : list Object.t) (out : ostream) :
  writes out (Document.child_lines 0 objs) (Document.RenderAll objs out).
Proof.
  induction objs as [|o objs IH];
    cbn [Document.RenderAll Document.child_lines].
  - apply writes_skip.
  - eapply writes_ext.
    + eapply writes_seq; [|exact IH].
      apply (Object_Render_writes o (RenderContext.of_ostream out)).
    + cbn [RenderContext.of_ostream RenderContext.indent spaces Z.max Z.to_nat
             Z.compare append].
      now rewrite append_assoc.
Qed.

(** [Add] keeps the insertion order in [objects_] and leaves [all_obj_]. *)
Lemma Add_appends (objs : list Object.t) (d : Document.t) :
  let d' := fold_left (fun d o => Document.Add o d) objs d in
  Document.objects_ d' = (Document.objects_ d ++ objs)%list
  /\ Document.all_obj_ d' = Document.all_obj_ d.
Proof.
  revert d. induction objs as [|o objs IH]; intros d; cbn [fold_left].
  - now rewrite app_nil_r.
  - destruct (IH (Document.Add o d)) as [H1 H2]. cbv zeta in *.
    rewrite H1, H2. cbn [Document.Add Document.objects_ Document.all_obj_].
    now rewrite <- app_assoc.
Qed.

End Shapes.

(** ** Circle *)

(** C5, as stated, fails: the element of the circle with center (20, 30)
    and radius 15 carries a space between the last attribute and the
    closing bracket. *)
Lemma Circle_element_counterexample :
  let c := @Circle.SetRadius ZDouble (of_Z 15)
             (Circle.SetCenter (Point.Make (of_Z 20) (of_Z 30)) Circle.default) in
  Object.element (Object.OfCircle c)
  = "<circle cx=" ++ dq ++ "20" ++ dq ++ " cy=" ++ dq ++ "30" ++ dq
      ++ " r=" ++ dq ++ "15" ++ dq ++ " />"
  /\ Object.element (Object.OfCircle c)
     <> "<circle cx=" ++ dq ++ "20" ++ dq ++ " cy=" ++ dq ++ "30" ++ dq
          ++ " r=" ++ dq ++ "15" ++ dq ++ "/>".
Proof.
  cbv zeta. split; [reflexivity|]. vm_compute. discriminate.
Qed.

(** C5, amended.  The element of a circle is the tag name, the three
    attributes cx, cy and r in double quotes, one space, and the closing
    bracket.  Where the formatter prints 20, 30 and 15 as such, the circle
    of the example, rendered by [Object::Render] in a context of indent 2,
    makes the line of two spaces, that element and a line feed. *)
Theorem Circle_element_with_space (D : Double)
  (H20 : print_double (of_Z 20) = "20")
  (H30 : print_double (of_Z 30) = "30")
  (H15 : print_double (of_Z 15) = "15") :
  (forall (c : Circle.t) (ctx : RenderContext.t),
      writes (RenderContext.out ctx)
        ("<circle cx=" ++ dq ++ print_double (Point.x (Circle.center_ c)) ++ dq
           ++ " cy=" ++ dq ++ print_double (Point.y (Circle.center_ c)) ++ dq
           ++ " r=" ++ dq ++ print_double (Circle.radius_ c) ++ dq ++ " />")
        (Circle.RenderObject c ctx))
  /\ (forall (o : ostream) (step : Z),
         writes o
           ("  <circle cx=" ++ dq ++ "20" ++ dq ++ " cy=" ++ dq ++ "30" ++ dq
              ++ " r=" ++ dq ++ "15" ++ dq ++ " />" ++ endl)
           (Object.Render
              (Object.OfCircle
                 (Circle.SetRadius (of_Z 15)
                    (Circle.SetCenter (Point.Make (of_Z 20) (of_Z 30))
                       Circle.default)))
              (RenderContext.make o step 2))).
Proof.
  split; [apply Circle_RenderObject_writes|].
  intros o step.
  eapply writes_ext; [apply Object_Render_writes|].
  unfold Object.element.
  rewrite (writes_fresh _ _ _
             (Circle_RenderObject_writes _ (RenderContext.of_ostream 0%nat))
           : Object.RenderObject (Object.OfCircle _) _ fresh 0%nat = _).
  cbn [Circle.SetRadius Circle.SetCenter Circle.center_ Circle.radius_
         Point.x Point.y RenderContext.make RenderContext.indent].
  rewrite H20, H30, H15. reflexivity.
Qed.

Lemma Circle_element_with_space_witness :
  @print_double ZDouble (of_Z 20) = "20"
  /\ forall (o : ostream) (step : Z),
       writes o
         ("  <circle cx=" ++ dq ++ "20" ++ dq ++ " cy=" ++ dq ++ "30" ++ dq
            ++ " r=" ++ dq ++ "15" ++ dq ++ " />" ++ endl)
         (Object.Render
            (Object.OfCircle
               (@Circle.SetRadius ZDouble (of_Z 15)
                  (Circle.SetCenter (Point.Make (of_Z 20) (of_Z 30))
                     Circle.default)))
            (RenderContext.make o step 2)).
Proof.
  split; [reflexivity|].
  exact (proj2 (Circle_element_with_space ZDouble eq_refl eq_refl eq_refl)).
Defined.

(** ** Polyline *)

(** C4.  As written, [Polyline::RenderObject] opens neither the tag nor
    closes the attribute: for every polyline the element starts with the
    tag name, without a bracket, and the closing bracket follows the last
    point's space, without a quote.  The points are listed in insertion
    order, each as x, comma, y and one space.  For the polyline without
    points this is not the element the claim gives. *)
Theorem Polyline_element_as_written (D : Double) :
  (forall (l : Polyline.t) (ctx : RenderContext.t),
      writes (RenderContext.out ctx)
        ("polyline points=" ++ dq
           ++ Polyline.points_text (Polyline.all_point_ l) ++ "/>")
        (Polyline.RenderObject l ctx))
  /\ (forall (ps : list Point.t),
         Polyline.all_point_
           (fold_left (fun l p => Polyline.AddPoint p l) ps Polyline.default)
         = ps)
  /\ Object.element (Object.OfPolyline Polyline.default)
     = "polyline points=" ++ dq ++ "/>"
  /\ Object.element (Object.OfPolyline Polyline.default)
     <> "<polyline points=" ++ dq ++ dq ++ "/>".
Proof.
  split; [apply Polyline_RenderObject_writes|].
  split; [intros ps; apply (AddPoint_appends ps Polyline.default)|].
  split; [reflexivity|].
  vm_compute. discriminate.
Qed.

(** ** Document *)

(** C1.  As written, [Render] is the loop over [all_obj_] and nothing
    more: for every document it appends the lines of those objects, each
    rendered in the context the bare stream converts to, and neither the
    prologue nor a root line.  For the empty document it writes nothing,
    where the claim has the prologue, the root open line and the root
    close line. *)
Theorem Document_Render_omits_prologue_and_root (D : Double) :
  (forall out : ostream, writes out "" (Document.Render Document.default out))
  /\ Document.Render_spec 2 (Document.all_obj_ Document.default)
     = Document.prologue ++ Document.root_open ++ Document.root_close
  /\ (forall out : ostream,
         Document.Render Document.default out fresh out
         <> Document.Render_spec 2 (Document.all_obj_ Document.default))
  /\ (forall (d : Document.t) (out : ostream),
         writes out (Document.child_lines 0 (Document.all_obj_ d))
           (Document.Render d out)).
Proof.
  split; [intros out; apply (RenderAll_writes [] out)|].
  split; [reflexivity|].
  split; [|intros d out; apply RenderAll_writes].
  intros out.
  rewrite (writes_fresh _ _ _ (RenderAll_writes [] out)
           : Document.Render Document.default out fresh out = _).
  vm_compute. discriminate.
Qed.

Lemma run_Adds (D : Double) (objs : list Object.t) (w : Client.World) :
  Client.run (map Client.Add objs) w
  = {| Client.doc := fold_left (fun d o => Document.Add o d) objs (Client.doc w);
       Client.sinks := Client.sinks w |}.
Proof.
  revert w. induction objs as [|o objs IH]; intros w.
  - destruct w; reflexivity.
  - cbn [map]. unfold Client.run in *. cbn [fold_left]. rewrite IH.
    reflexivity.
Qed.

(** C2.  Shapes handed to [Add] land in [objects_], in order, and [Render]
    walks [all_obj_]: after any sequence of [Add] calls on a new document a
    [Render] writes nothing, so no element line of an added shape is in the
    output. *)
Theorem Added_shapes_are_not_rendered (D : Double)
  (objs : list Object.t) (out : ostream) :
  let w := Client.run (map Client.Add objs ++ [Client.Render out])
             Client.start in
  Document.objects_ (Client.doc w) = objs
  /\ Document.all_obj_ (Client.doc w) = []
  /\ forall k, Client.sinks w k = "".
Proof.
  cbv zeta. unfold Client.run. rewrite fold_left_app.
  fold (Client.run (map Client.Add objs) Client.start).
  rewrite run_Adds. cbn [fold_left Client.exec Client.doc Client.sinks].
  destruct (Add_appends objs Document.default) as [H1 H2].
  cbv zeta in H1, H2. cbn [Client.start Client.doc Client.sinks].
  rewrite H1, H2. cbn [Document.default Document.objects_ Document.all_obj_].
  split; [reflexivity|]. split; [reflexivity|].
  intros k. unfold Document.Render. rewrite H2. reflexivity.
Qed.

(** C7.  The characters a [Render] call appends depend on the document
    alone: for every document there is one string that every call appends,
    on whatever stream and whatever the streams hold, and nothing else
    changes.  The caller's document is the same after the call, so a second
    call appends the same string again. *)
Theorem Render_deterministic_and_const (D : Double) (d : Document.t) :
  exists bytes : string,
    forall (out : ostream) (sigma : Sinks),
      let w0 := {| Client.doc := d; Client.sinks := sigma |} in
      let w1 := Client.exec (Client.Render out) w0 in
      let w2 := Client.exec (Client.Render out) w1 in
      Client.doc w1 = d
      /\ Client.doc w2 = d
      /\ (forall k, Client.sinks w1 k
                    = if Nat.eqb k out then sigma k ++ bytes else sigma k)
      /\ (forall k, Client.sinks w2 k
                    = if Nat.eqb k out then Client.sinks w1 k ++ bytes
                      else Client.sinks w1 k).
Proof.
  exists (Document.child_lines 0 (Document.all_obj_ d)).
  intros out sigma. cbv zeta.
  cbn [Client.exec Client.doc Client.sinks].
  split; [reflexivity|]. split; [reflexivity|].
  split; intros k; apply (RenderAll_writes (Document.all_obj_ d) out).
Qed.

(** ** Escaping *)

Lemma replace_char_app (c : ascii) (r s1 s2 : string) :
  replace_char c r (s1 ++ s2) = replace_char c r s1 ++ replace_char c r s2.
Proof.
  induction s1 as [|a s1 IH]; cbn [append replace_char]; [reflexivity|].
  now rewrite IH, append_assoc.
Qed.

Lemma escape_app (s1 s2 : string) : escape (s1 ++ s2) = escape s1 ++ escape s2.
Proof. unfold escape. now rewrite !replace_char_app. Qed.

Lemma escape_one (a : ascii) : escape (String a "") = escape_char a.
Proof. destruct a as [[] [] [] [] [] [] [] []]; reflexivity. Qed.

(** The five passes, in their order, come to the replacement of every
    character by its own escape. *)
Lemma escape_is_escape_each (s : string) : escape s = escape_each s.
Proof.
  induction s as [|a s IH]; [reflexivity|].
  change (String a s) with (String a "" ++ s).
  rewrite escape_app, escape_one, IH. reflexivity.
Qed.

Lemma prefix_empty (s : string) : prefix "" s = true.
Proof. destruct s; reflexivity. Qed.

Lemma no_raw_special_escape_each (s : string) :
  no_raw_special (escape_each s) = true.
Proof.
  induction s as [|a s IH]; [reflexivity|].
  cbn [escape_each].
  destruct a as [[] [] [] [] [] [] [] []]; cbn; unfold starts_escape; cbn;
    rewrite ?prefix_empty; exact IH.
Qed.

Lemma occurs_escape_each (c : ascii) (s : string) :
  In c ["<"; ">"; dquote; "'"]%char ->
  occurs c (escape_each s) = false.
Proof.
  intros Hc. induction s as [|a s IH]; [reflexivity|].
  cbn [escape_each].
  destruct Hc as [<-|[<-|[<-|[<-|[]]]]];
    destruct a as [[] [] [] [] [] [] [] []]; cbn; exact IH.
Qed.

Example no_raw_special_rejects_raw :
  no_raw_special "a&b" = false
  /\ no_raw_special "a<b" = false
  /\ no_raw_special ("say " ++ dq) = false
  /\ no_raw_special "x &amp; y &lt; z" = true.
Proof. repeat split. Qed.

(** The content of scenario S4. *)
Example escape_scenario_S4 :
  escape ("Hello, " ++ dq ++ "world" ++ dq ++ " & <svg>")
  = "Hello, &quot;world&quot; &amp; &lt;svg&gt;".
Proof. reflexivity. Qed.

(** C6.  A string given to [SetData], [SetFontFamily] or [SetFontWeight]
    shows in the element as its escape, between a prefix and a suffix that
    do not depend on it.  The escape, five passes in the order ampersand,
    less-than, greater-than, double quote, apostrophe, replaces every
    occurrence of the five characters by its escape and keeps the others;
    it holds none of less-than, greater-than, double quote and apostrophe,
    and every ampersand in it opens one of the five escapes. *)
Theorem escape_complete (D : Double) :
  (forall x : Text.t, exists pre post : string,
      forall (s : string) (ctx : RenderContext.t),
        writes (RenderContext.out ctx) (pre ++ escape s ++ post)
          (Text.RenderObject (Text.SetData s x) ctx))
  /\ (forall x : Text.t, exists pre post : string,
         forall (s : string) (ctx : RenderContext.t),
           writes (RenderContext.out ctx) (pre ++ escape s ++ post)
             (Text.RenderObject (Text.SetFontFamily s x) ctx))
  /\ (forall x : Text.t, exists pre post : string,
         forall (s : string) (ctx : RenderContext.t),
           writes (RenderContext.out ctx) (pre ++ escape s ++ post)
             (Text.RenderObject (Text.SetFontWeight s x) ctx))
  /\ (forall s : string,
         escape s = escape_each s
         /\ no_raw_special (escape s) = true
         /\ occurs "<" (escape s) = false
         /\ occurs ">" (escape s) = false
         /\ occurs dquote (escape s) = false
         /\ occurs "'" (escape s) = false).
Proof.
  split; [|split; [|split]].
  - intros x.
    exists (Text.attributes_text x
              ++ Text.optional_text "font-family" (Text.font_family_ x)
              ++ Text.optional_text "font-weight" (Text.font_weight_ x)
              ++ ">").
    exists "</text>". intros s ctx.
    eapply writes_ext; [apply Text_RenderObject_writes|].
    unfold Text.element_text, Text.attributes_text. cbn [Text.SetData Text.pos_ Text.offset_
      Text.font_size Text.font_family_ Text.font_weight_ Text.data_].
    string_norm. reflexivity.
  - intros x.
    exists (Text.attributes_text x ++ " font-family=" ++ dq).
    exists (dq ++ Text.optional_text "font-weight" (Text.font_weight_ x)
              ++ ">" ++ escape (Text.data_ x) ++ "</text>").
    intros s ctx.
    eapply writes_ext; [apply Text_RenderObject_writes|].
    unfold Text.element_text, Text.attributes_text, Text.optional_text at 1.
    cbn [Text.SetFontFamily Text.pos_ Text.offset_
      Text.font_size Text.font_family_ Text.font_weight_ Text.data_].
    string_norm. reflexivity.
  - intros x.
    exists (Text.attributes_text x
              ++ Text.optional_text "font-family" (Text.font_family_ x)
              ++ " font-weight=" ++ dq).
    exists (dq ++ ">" ++ escape (Text.data_ x) ++ "</text>").
    intros s ctx.
    eapply writes_ext; [apply Text_RenderObject_writes|].
    unfold Text.element_text, Text.attributes_text, Text.optional_text at 2.
    cbn [Text.SetFontWeight Text.pos_ Text.offset_
      Text.font_size Text.font_family_ Text.font_weight_ Text.data_].
    string_norm. reflexivity.
  - intros s. rewrite escape_is_escape_each.
    split; [reflexivity|]. split; [apply no_raw_special_escape_each|].
    repeat split; apply occurs_escape_each; cbn; tauto.
Qed.

(** ** Text *)

(** One setter call on a text gives a text; the family is absent
    afterwards exactly when it was absent before and the call is not
    [SetFontFamily]; likewise for the weight. *)
Lemma call_text_optional (D : Double) (m : Setter.name) (a : Setter.arg)
  (x0 : Text.t) :
  match Setter.call m a (Object.OfText x0) with
  | Some (Object.OfText x) =>
      (Text.font_family_ x = None
       <-> Text.font_family_ x0 = None
           /\ Setter.name_eqb Setter.SetFontFamily m = false)
      /\ (Text.font_weight_ x = None
          <-> Text.font_weight_ x0 = None
              /\ Setter.name_eqb Setter.SetFontWeight m = false)
  | Some _ => False
  | None => True
  end.
Proof.
  destruct m, a; cbn; try exact I; intuition discriminate.
Qed.

Lemma chain_text_optional (D : Double) (cs : list (Setter.name * Setter.arg)) :
  forall x0 : Text.t,
    match Setter.chain cs (Object.OfText x0) with
    | Some (Object.OfText x) =>
        (Text.font_family_ x = None
         <-> Text.font_family_ x0 = None
             /\ Setter.called Setter.SetFontFamily cs = false)
        /\ (Text.font_weight_ x = None
            <-> Text.font_weight_ x0 = None
                /\ Setter.called Setter.SetFontWeight cs = false)
    | Some _ => False
    | None => True
    end.
Proof.
  induction cs as [|[m a] cs IH]; intros x0.
  - cbn. tauto.
  - cbn [Setter.chain].
    pose proof (call_text_optional D m a x0) as Hc.
    destruct (Setter.call m a (Object.OfText x0)) as [[c|l|x1]|];
      try contradiction; [|exact I].
    specialize (IH x1).
    destruct (Setter.chain cs (Object.OfText x1)) as [[c|l|x]|];
      try contradiction; [|exact I].
    unfold Setter.called in *. cbn [existsb fst].
    rewrite !orb_false_iff. tauto.
Qed.

(** C3.  For every text, the element is the opening tag with x, y, dx, dy
    and font-size, the font-family and the font-weight attribute for a
    member that holds a value, the bracket, the escaped content and the
    closing tag.  A new text has position and offset (0, 0), font size 1
    and empty content, and along any chain of setter calls on it the
    family (the weight) attribute is absent exactly when [SetFontFamily]
    ([SetFontWeight]) is not in the chain. *)
Theorem Text_element (D : Double) :
  (forall (x : Text.t) (ctx : RenderContext.t),
      writes (RenderContext.out ctx)
        ("<text x=" ++ dq ++ print_double (Point.x (Text.pos_ x)) ++ dq
           ++ " y=" ++ dq ++ print_double (Point.y (Text.pos_ x)) ++ dq
           ++ " dx=" ++ dq ++ print_double (Point.x (Text.offset_ x)) ++ dq
           ++ " dy=" ++ dq ++ print_double (Point.y (Text.offset_ x)) ++ dq
           ++ " font-size=" ++ dq ++ print_N (Text.font_size x) ++ dq
           ++ match Text.font_family_ x with
              | None => ""
              | Some s => " font-family=" ++ dq ++ escape s ++ dq
              end
           ++ match Text.font_weight_ x with
              | None => ""
              | Some s => " font-weight=" ++ dq ++ escape s ++ dq
              end
           ++ ">" ++ escape (Text.data_ x) ++ "</text>")
        (Text.RenderObject x ctx))
  /\ (forall ctx : RenderContext.t,
         writes (RenderContext.out ctx)
           ("<text x=" ++ dq ++ print_double (of_Z 0) ++ dq
              ++ " y=" ++ dq ++ print_double (of_Z 0) ++ dq
              ++ " dx=" ++ dq ++ print_double (of_Z 0) ++ dq
              ++ " dy=" ++ dq ++ print_double (of_Z 0) ++ dq
              ++ " font-size=" ++ dq ++ "1" ++ dq ++ "></text>")
           (Text.RenderObject Text.default ctx))
  /\ (forall cs : list (Setter.name * Setter.arg),
         match Setter.chain cs (Object.OfText Text.default) with
         | Some (Object.OfText x) =>
             (Text.font_family_ x = None
              <-> Setter.called Setter.SetFontFamily cs = false)
             /\ (Text.font_weight_ x = None
                 <-> Setter.called Setter.SetFontWeight cs = false)
         | Some _ => False
         | None => True
         end).
Proof.
  split; [|split].
  - intros x ctx.
    eapply writes_ext; [apply Text_RenderObject_writes|].
    unfold Text.element_text, Text.attributes_text, Text.optional_text.
    destruct (Text.font_family_ x), (Text.font_weight_ x);
      string_norm; reflexivity.
  - intros ctx.
    eapply writes_ext; [apply Text_RenderObject_writes|].
    unfold Text.element_text, Text.attributes_text, Text.optional_text.
    cbn [Text.default Text.pos_ Text.offset_ Text.font_size Text.font_family_
           Text.font_weight_ Text.data_ Point.x Point.y].
    change (print_N 1) with "1". change (escape "") with "".
    string_norm. reflexivity.
  - intros cs. pose proof (chain_text_optional D cs Text.default) as H.
    destruct (Setter.chain cs (Object.OfText Text.default)) as [[c|l|x]|];
      try exact H.
    cbn [Text.default Text.font_family_ Text.font_weight_] in H.
    destruct H as [H1 H2]. split; [rewrite H1 | rewrite H2]; tauto.
Qed.

(** Scenarios S4 and S5 of the spec, with integer-valued coordinates. *)
Example Text_scenario_S4 :
  Object.element
    (Object.OfText
       (Text.SetData ("Hello, " ++ dq ++ "world" ++ dq ++ " & <svg>")
          (Text.SetFontWeight "bold"
             (Text.SetFontFamily "Verdana"
                (Text.SetFontSize 14
                   (Text.SetOffset (@Point.Make ZDouble 0 5)
                      (Text.SetPosition (@Point.Make ZDouble 10 20)
                         Text.default)))))))
  = "<text x=" ++ dq ++ "10" ++ dq ++ " y=" ++ dq ++ "20" ++ dq
      ++ " dx=" ++ dq ++ "0" ++ dq ++ " dy=" ++ dq ++ "5" ++ dq
      ++ " font-size=" ++ dq ++ "14" ++ dq
      ++ " font-family=" ++ dq ++ "Verdana" ++ dq
      ++ " font-weight=" ++ dq ++ "bold" ++ dq
      ++ ">Hello, &quot;world&quot; &amp; &lt;svg&gt;</text>".
Proof. reflexivity. Qed.

Example Text_scenario_S5 :
  Object.element
    (Object.OfText (Text.SetData "hi" (Text.SetFontSize 12 (@Text.default ZDouble))))
  = "<text x=" ++ dq ++ "0" ++ dq ++ " y=" ++ dq ++ "0" ++ dq
      ++ " dx=" ++ dq ++ "0" ++ dq ++ " dy=" ++ dq ++ "0" ++ dq
      ++ " font-size=" ++ dq ++ "12" ++ dq ++ ">hi</text>".
Proof. reflexivity. Qed.

(** ** Setters *)

(** C8, as stated, fails for [AddPoint], which appends: a polyline given
    (0, 0) and then (1, 1) lists both points, one given (1, 1) alone lists
    one. *)
Lemma AddPoint_twice_counterexample :
  let l0 := @Object.OfPolyline ZDouble Polyline.default in
  let v1 := Setter.APoint (Point.Make (of_Z 0) (of_Z 0)) in
  let v2 := Setter.APoint (Point.Make (of_Z 1) (of_Z 1)) in
  option_map Object.element
    (Setter.chain [(Setter.AddPoint, v1); (Setter.AddPoint, v2)] l0)
  = Some ("polyline points=" ++ dq ++ "0,0 1,1 />")
  /\ option_map Object.element (Setter.call Setter.AddPoint v2 l0)
     = Some ("polyline points=" ++ dq ++ "1,1 />")
  /\ option_map Object.element
       (Setter.chain [(Setter.AddPoint, v1); (Setter.AddPoint, v2)] l0)
     <> option_map Object.element (Setter.call Setter.AddPoint v2 l0).
Proof.
  cbv zeta. split; [reflexivity|]. split; [reflexivity|].
  vm_compute. discriminate.
Qed.

(** C8, amended.  For every setter other than [AddPoint], every object it
    applies to and every two arguments: the call with the first argument
    and then with the second gives the object that the call with the
    second alone gives, hence the same element and the same rendered
    line. *)
Theorem setter_overwrites (D : Double) (m : Setter.name)
  (v1 v2 : Setter.arg) (o o1 o12 : Object.t) :
  m <> Setter.AddPoint ->
  Setter.call m v1 o = Some o1 ->
  Setter.call m v2 o1 = Some o12 ->
  exists o2 : Object.t,
    Setter.call m v2 o = Some o2
    /\ o12 = o2
    /\ Object.element o12 = Object.element o2
    /\ forall ctx sigma k,
         Object.Render o12 ctx sigma k = Object.Render o2 ctx sigma k.
Proof.
  intros Hm H1 H12. exists o12.
  split; [|repeat split].
  destruct m, v1, o; cbn in H1; try discriminate; try congruence;
    injection H1 as <-;
    destruct v2; cbn in H12; try discriminate;
    injection H12 as <-; reflexivity.
Qed.

Lemma setter_overwrites_witness :
  let o := @Object.OfCircle ZDouble Circle.default in
  Setter.chain [(Setter.SetRadius, Setter.ADouble (of_Z 5));
                (Setter.SetRadius, Setter.ADouble (of_Z 15))] o
  = Setter.call Setter.SetRadius (Setter.ADouble (of_Z 15)) o.
Proof.
  cbv zeta.
  destruct (setter_overwrites ZDouble Setter.SetRadius
              (Setter.ADouble (of_Z 5)) (Setter.ADouble (of_Z 15))
              (Object.OfCircle Circle.default)
              (Object.OfCircle (Circle.SetRadius (of_Z 5) Circle.default))
              (Object.OfCircle
                 (Circle.SetRadius (of_Z 15)
                    (Circle.SetRadius (of_Z 5) Circle.default))))
    as (o2 & H2 & E & _).
  - discriminate.
  - reflexivity.
  - reflexivity.
  - rewrite H2, <- E. reflexivity.
Defined.

(** Scenario S3 of the spec as the code renders it. *)
Example Polyline_scenario_S3 :
  Object.element
    (Object.OfPolyline
       (Polyline.AddPoint (@Point.Make ZDouble 20 0)
          (Polyline.AddPoint (@Point.Make ZDouble 10 10)
             (Polyline.AddPoint (@Point.Make ZDouble 0 0) Polyline.default))))
  = "polyline points=" ++ dq ++ "0,0 10,10 20,0 />".
Proof. reflexivity. Qed.

(** * Further properties of the code *)

(** ** RenderContext: nesting *)

Lemma wrap_int_range (z : Z) : is_int (wrap_int z).
Proof.
  unfold is_int, wrap_int, INT_MIN, INT_MAX.
  pose proof (Z.mod_pos_bound (z + 2 ^ 31) (2 ^ 32) ltac:(lia)). lia.
Qed.

Lemma wrap_int_small (z : Z) : is_int z -> wrap_int z = z.
Proof.
  unfold is_int, wrap_int, INT_MIN, INT_MAX. intros H.
  rewrite Z.mod_small by lia. lia.
Qed.

Lemma wrap_int_add_l (a b : Z) : wrap_int (wrap_int a + b) = wrap_int (a + b).
Proof.
  unfold wrap_int. f_equal.
  replace ((a + 2 ^ 31) mod 2 ^ 32 - 2 ^ 31 + b + 2 ^ 31)
    with ((a + 2 ^ 31) mod 2 ^ 32 + b) by lia.
  rewrite Z.add_mod_idemp_l by lia. f_equal. lia.
Qed.

Lemma Indented_iter_fields (c : RenderContext.t) (n : nat) :
  RenderContext.out (Nat.iter n RenderContext.Indented c) = RenderContext.out c
  /\ RenderContext.indent_step (Nat.iter n RenderContext.Indented c)
     = RenderContext.indent_step c.
Proof.
  induction n as [|n [IH1 IH2]]; [split; reflexivity|].
  change (Nat.iter (S n) RenderContext.Indented c)
    with (RenderContext.Indented (Nat.iter n RenderContext.Indented c)).
  split; assumption.
Qed.

Lemma Indented_iter_indent (c : RenderContext.t) (n : nat) :
  wrap_int (RenderContext.indent (Nat.iter n RenderContext.Indented c))
  = wrap_int (RenderContext.indent c
              + Z.of_nat n * RenderContext.indent_step c).
Proof.
  induction n as [|n IH].
  - cbn [Nat.iter nat_rect]. f_equal. lia.
  - change (Nat.iter (S n) RenderContext.Indented c)
      with (RenderContext.Indented (Nat.iter n RenderContext.Indented c)).
    unfold RenderContext.Indented at 1.
    cbn [RenderContext.make RenderContext.indent].
    rewrite (proj2 (Indented_iter_fields c n)).
    rewrite (wrap_int_small (wrap_int _)) by apply wrap_int_range.
    rewrite <- wrap_int_add_l, IH, wrap_int_add_l. f_equal. lia.
Qed.

Lemma Indented_iter_S_indent (c : RenderContext.t) (n : nat) :
  is_int (RenderContext.indent (Nat.iter (S n) RenderContext.Indented c))
  /\ RenderContext.indent (Nat.iter (S n) RenderContext.Indented c)
     = wrap_int (RenderContext.indent c
                 + Z.of_nat (S n) * RenderContext.indent_step c).
Proof.
  assert (Hr : is_int (RenderContext.indent
                         (Nat.iter (S n) RenderContext.Indented c))).
  { change (Nat.iter (S n) RenderContext.Indented c)
      with (RenderContext.Indented (Nat.iter n RenderContext.Indented c)).
    apply wrap_int_range. }
  split; [exact Hr|].
  rewrite <- (wrap_int_small _ Hr). apply Indented_iter_indent.
Qed.

(** X2.  Where the first indent and the indent [n] levels down are both
    in the range of [int], the context [n] levels down has exactly the
    indent [indent + n * indent_step], and it is a multiple of the step
    when the first indent is one. *)
Theorem Indented_nested_in_range (c : RenderContext.t) (n : nat) :
  is_int (RenderContext.indent c) ->
  is_int (RenderContext.indent c + Z.of_nat n * RenderContext.indent_step c) ->
  let c' := Nat.iter n RenderContext.Indented c in
  RenderContext.indent c'
  = RenderContext.indent c + Z.of_nat n * RenderContext.indent_step c
  /\ ((RenderContext.indent_step c | RenderContext.indent c) ->
      (RenderContext.indent_step c' | RenderContext.indent c')).
Proof.
  intros Hi Hn. cbv zeta.
  assert (E : RenderContext.indent (Nat.iter n RenderContext.Indented c)
              = RenderContext.indent c
                + Z.of_nat n * RenderContext.indent_step c).
  { destruct n as [|n].
    - cbn [Nat.iter nat_rect]. lia.
    - destruct (Indented_iter_S_indent c n) as [_ E]. rewrite E.
      now apply wrap_int_small. }
  split; [exact E|].
  intros Hd. rewrite E, (proj2 (Indented_iter_fields c n)).
  apply Z.divide_add_r; [assumption|].
  apply Z.divide_mul_r, Z.divide_refl.
Qed.

Lemma Indented_nested_in_range_witness :
  RenderContext.indent
    (Nat.iter 3 RenderContext.Indented (RenderContext.make 0%nat 2 0)) = 6.
Proof.
  apply (Indented_nested_in_range (RenderContext.make 0%nat 2 0) 3);
    unfold is_int, INT_MIN, INT_MAX; simpl; lia.
Defined.

(** X3.  A context whose step is 0, as the one-argument constructor makes
    it, is its own child: [Indented] returns an equal context. *)
Theorem Indented_step_zero (c : RenderContext.t) :
  RenderContext.indent_step c = 0 ->
  is_int (RenderContext.indent c) ->
  RenderContext.Indented c = c.
Proof.
  intros Hs Hi. destruct c as [o step ind]. cbn in Hs, Hi. subst step.
  unfold RenderContext.Indented, RenderContext.make.
  cbn [RenderContext.out RenderContext.indent_step RenderContext.indent].
  rewrite Z.add_0_r, wrap_int_small by assumption. reflexivity.
Qed.

Lemma Indented_step_zero_witness :
  RenderContext.Indented (RenderContext.of_ostream 7%nat)
  = RenderContext.of_ostream 7%nat.
Proof.
  apply (Indented_step_zero (RenderContext.of_ostream 7%nat)).
  - reflexivity.
  - unfold is_int, INT_MIN, INT_MAX; simpl; lia.
Defined.

Lemma spaces_add (n m : nat) : spaces (n + m) = spaces n ++ spaces m.
Proof. induction n as [|n IH]; simpl; [reflexivity | now rewrite IH]. Qed.

(** X4.  [RenderIndent] on the context [n] levels below one of indent 0
    writes [n * indent_step] spaces, as long as the step is not negative
    and that product is an [int]: every level adds [indent_step] spaces. *)
Theorem RenderIndent_nested (o : ostream) (step : Z) (n : nat) :
  0 <= step ->
  Z.of_nat n * step <= INT_MAX ->
  writes o (spaces (n * Z.to_nat step))
    (RenderContext.RenderIndent
       (Nat.iter n RenderContext.Indented (RenderContext.make o step 0))).
Proof.
  intros Hs Hn.
  pose (c := RenderContext.make o step 0).
  destruct (Indented_iter_fields c n) as [Ho _].
  assert (Hi : RenderContext.indent (Nat.iter n RenderContext.Indented c)
               = Z.of_nat n * step).
  { destruct n as [|n]; [reflexivity|].
    destruct (Indented_iter_S_indent c n) as [_ E]. rewrite E.
    cbn [c RenderContext.make RenderContext.indent RenderContext.indent_step].
    apply wrap_int_small. unfold is_int, INT_MIN, INT_MAX in *. lia. }
  fold c. unfold RenderContext.RenderIndent.
  replace o with (RenderContext.out (Nat.iter n RenderContext.Indented c))
    by exact Ho.
  apply RenderIndent_from_writes. rewrite Hi. lia.
Qed.

Lemma RenderIndent_nested_witness :
  writes 0%nat "      "
    (RenderContext.RenderIndent
       (Nat.iter 3 RenderContext.Indented (RenderContext.make 0%nat 2 0))).
Proof.
  apply (RenderIndent_nested 0%nat 2 3); unfold INT_MAX; simpl; lia.
Defined.

(** ** Objects and lines *)

(** X5.  [Object::Render] writes one line and nothing else: as many
    spaces as the indent of the context (none when it is negative), what
    [RenderObject] writes for the object, and a line feed; it appends them
    to the stream of the context and leaves every other stream alone. *)
Theorem Object_Render_one_line (D : Double)
  (o : Object.t) (ctx : RenderContext.t) (sigma : Sinks) :
  Object.Render o ctx sigma (RenderContext.out ctx)
  = sigma (RenderContext.out ctx)
      ++ spaces (Z.to_nat (RenderContext.indent ctx))
      ++ Object.RenderObject o ctx fresh (RenderContext.out ctx) ++ endl
  /\ forall k, k <> RenderContext.out ctx -> Object.Render o ctx sigma k = sigma k.
Proof.
  pose proof (Object_Render_writes o ctx) as H.
  pose proof (writes_fresh _ _ _ (RenderObject_writes_element o ctx)) as E.
  split.
  - rewrite (H sigma), Nat.eqb_refl, E.
    replace (Z.to_nat (Z.max (RenderContext.indent ctx) 0))
      with (Z.to_nat (RenderContext.indent ctx)) by lia.
    reflexivity.
  - intros k Hk. rewrite (H sigma k).
    apply Nat.eqb_neq in Hk. now rewrite Hk.
Qed.

(** Statements that write to different streams can be swapped. *)
Lemma writes_commute a b s t f g :
  writes a s f -> writes b t g -> a <> b ->
  forall sigma k, (f >> g) sigma k = (g >> f) sigma k.
Proof.
  intros Hf Hg Hab sigma k. unfold seq.
  rewrite (Hg (f sigma) k), (Hf sigma k), (Hf (g sigma) k), (Hg sigma k).
  destruct (Nat.eqb_spec k a) as [Ha|Ha]; destruct (Nat.eqb_spec k b) as [Hb|Hb];
    try reflexivity.
  congruence.
Qed.

(** X6.  Renders onto two different streams do not interfere: rendering
    one object on the first stream and another on the second leaves both
    streams the same in either order. *)
Theorem Object_Render_distinct_streams (D : Double)
  (o1 o2 : Object.t) (c1 c2 : RenderContext.t) :
  RenderContext.out c1 <> RenderContext.out c2 ->
  forall sigma k,
    (Object.Render o1 c1 >> Object.Render o2 c2) sigma k
    = (Object.Render o2 c2 >> Object.Render o1 c1) sigma k.
Proof.
  intros Hne.
  exact (writes_commute _ _ _ _ _ _
           (Object_Render_writes o1 c1) (Object_Render_writes o2 c2) Hne).
Qed.

Lemma Object_Render_distinct_streams_witness :
  let o := @Object.OfCircle ZDouble Circle.default in
  (Object.Render o (RenderContext.make 0%nat 2 2)
     >> Object.Render o (RenderContext.make 1%nat 2 4)) fresh 1%nat
  = (Object.Render o (RenderContext.make 1%nat 2 4)
       >> Object.Render o (RenderContext.make 0%nat 2 2)) fresh 1%nat.
Proof.
  cbv zeta.
  apply (Object_Render_distinct_streams ZDouble).
  cbn. discriminate.
Defined.

(** ** Polyline *)

Lemma points_text_app (D : Double) (ps qs : list Point.t) :
  Polyline.points_text (ps ++ qs)
  = Polyline.points_text ps ++ Polyline.points_text qs.
Proof.
  induction ps as [|p ps IH]; cbn [app Polyline.points_text append];
    [reflexivity|].
  rewrite IH. do 2 string_norm. reflexivity.
Qed.

(** X7.  [AddPoint] extends what the polyline renders at the end of the
    point list: after the call the element is the one before the call with
    the new point, as x, comma, y and one space, put in front of the
    closing bracket. *)
Theorem AddPoint_extends_element (D : Double)
  (l : Polyline.t) (point : Point.t) (ctx : RenderContext.t) :
  exists before : string,
    writes (RenderContext.out ctx) (before ++ "/>") (Polyline.RenderObject l ctx)
    /\ writes (RenderContext.out ctx)
         (before ++ print_double (Point.x point) ++ ","
            ++ print_double (Point.y point) ++ " " ++ "/>")
         (Polyline.RenderObject (Polyline.AddPoint point l) ctx).
Proof.
  exists ("polyline points=" ++ dq
            ++ Polyline.points_text (Polyline.all_point_ l)).
  split.
  - eapply writes_ext; [apply Polyline_RenderObject_writes|].
    string_norm. reflexivity.
  - eapply writes_ext; [apply Polyline_RenderObject_writes|].
    cbn [Polyline.AddPoint Polyline.all_point_].
    rewrite points_text_app. cbn [Polyline.points_text].
    string_norm. reflexivity.
Qed.

(** ** Chains of setters *)

(** X8.  A chain of setter calls on a circle that is well formed leaves a
    circle whose center is the argument of the last [SetCenter] of the
    chain and whose radius is the argument of the last [SetRadius]; a
    member no call of the chain sets keeps the value it had. *)
Theorem Circle_chain_last_wins (D : Double)
  (cs : list (Setter.name * Setter.arg)) (c0 : Circle.t) (o : Object.t) :
  Setter.chain cs (Object.OfCircle c0) = Some o ->
  o = Object.OfCircle
        {| Circle.center_ :=
             Setter.or_else
               (Setter.last_with (Setter.point_of Setter.SetCenter) cs)
               (Circle.center_ c0);
           Circle.radius_ :=
             Setter.or_else
               (Setter.last_with (Setter.double_of Setter.SetRadius) cs)
               (Circle.radius_ c0) |}.
Proof.
  revert c0. induction cs as [|[m a] cs IH]; intros c0 H.
  - cbn in H. injection H as <-. destruct c0; reflexivity.
  - cbn [Setter.chain] in H.
    destruct m, a; cbn [Setter.call] in H; try discriminate;
      apply IH in H; rewrite H; cbn [Setter.last_with];
      destruct (Setter.last_with (Setter.point_of Setter.SetCenter) cs);
      destruct (Setter.last_with (Setter.double_of Setter.SetRadius) cs);
      reflexivity.
Qed.

Lemma Circle_chain_last_wins_witness :
  let cs := [(Setter.SetCenter, Setter.APoint (@Point.Make ZDouble (of_Z 1) (of_Z 2)));
             (Setter.SetRadius, Setter.ADouble (of_Z 15));
             (Setter.SetCenter, Setter.APoint (Point.Make (of_Z 20) (of_Z 30)))] in
  let o := Object.OfCircle
             {| Circle.center_ := Point.Make (of_Z 20) (of_Z 30);
                Circle.radius_ := of_Z 15 |} in
  Setter.chain cs (Object.OfCircle Circle.default) = Some o
  /\ o = Object.OfCircle
           {| Circle.center_ :=
                Setter.or_else
                  (Setter.last_with (Setter.point_of Setter.SetCenter) cs)
                  (Circle.center_ Circle.default);
              Circle.radius_ :=
                Setter.or_else
                  (Setter.last_with (Setter.double_of Setter.SetRadius) cs)
                  (Circle.radius_ Circle.default) |}.
Proof.
  cbv zeta. split; [reflexivity|].
  apply (Circle_chain_last_wins ZDouble). reflexivity.
Defined.

(** X9.  A well-formed chain of setter calls on a text leaves a text in
    which every member holds the argument of the last call of its own
    setter, the font size reduced to 32 bits, and a member that no call of
    the chain sets keeps the value it had: the setters do not disturb each
    other's members, whatever their order. *)
Theorem Text_chain_last_wins (D : Double)
  (cs : list (Setter.name * Setter.arg)) (x0 : Text.t) (o : Object.t) :
  Setter.chain cs (Object.OfText x0) = Some o ->
  o = Object.OfText
        {| Text.pos_ :=
             Setter.or_else
               (Setter.last_with (Setter.point_of Setter.SetPosition) cs)
               (Text.pos_ x0);
           Text.offset_ :=
             Setter.or_else
               (Setter.last_with (Setter.point_of Setter.SetOffset) cs)
               (Text.offset_ x0);
           Text.font_size :=
             Setter.or_else
               (option_map wrap_uint32
                  (Setter.last_with (Setter.uint32_of Setter.SetFontSize) cs))
               (Text.font_size x0);
           Text.font_family_ :=
             match Setter.last_with (Setter.string_of Setter.SetFontFamily) cs
             with
             | Some s => Some s
             | None => Text.font_family_ x0
             end;
           Text.font_weight_ :=
             match Setter.last_with (Setter.string_of Setter.SetFontWeight) cs
             with
             | Some s => Some s
             | None => Text.font_weight_ x0
             end;
           Text.data_ :=
             Setter.or_else
               (Setter.last_with (Setter.string_of Setter.SetData) cs)
               (Text.data_ x0) |}.
Proof.
  revert x0. induction cs as [|[m a] cs IH]; intros x0 H.
  - cbn in H. injection H as <-. destruct x0; reflexivity.
  - cbn [Setter.chain] in H.
    destruct m, a; cbn [Setter.call] in H; try discriminate;
      apply IH in H; rewrite H; cbn [Setter.last_with];
      destruct (Setter.last_with (Setter.point_of Setter.SetPosition) cs);
      destruct (Setter.last_with (Setter.point_of Setter.SetOffset) cs);
      destruct (Setter.last_with (Setter.uint32_of Setter.SetFontSize) cs);
      destruct (Setter.last_with (Setter.string_of Setter.SetFontFamily) cs);
      destruct (Setter.last_with (Setter.string_of Setter.SetFontWeight) cs);
      destruct (Setter.last_with (Setter.string_of Setter.SetData) cs);
      reflexivity.
Qed.

Lemma Text_chain_last_wins_witness :
  let cs := [(Setter.SetData, Setter.AString "a");
             (Setter.SetFontSize, Setter.AUint32 12);
             (Setter.SetData, Setter.AString "b")] in
  let o := Object.OfText
             (Text.SetData "b" (Text.SetFontSize 12 (@Text.default ZDouble))) in
  Setter.chain cs (Object.OfText Text.default) = Some o
  /\ exists x : Text.t,
       o = Object.OfText x /\ Text.data_ x = "b" /\ Text.font_size x = 12%N.
Proof.
  cbv zeta. split; [reflexivity|].
  eexists. split.
  - apply (Text_chain_last_wins ZDouble
             [(Setter.SetData, Setter.AString "a");
              (Setter.SetFontSize, Setter.AUint32 12);
              (Setter.SetData, Setter.AString "b")]
             Text.default).
    reflexivity.
  - split; reflexivity.
Defined.

(** ** Documents *)

Lemma child_lines_app (D : Double) (n : nat) (l1 l2 : list Object.t) :
  Document.child_lines n (l1 ++ l2)
  = Document.child_lines n l1 ++ Document.child_lines n l2.
Proof.
  induction l1 as [|o l1 IH]; cbn [app Document.child_lines append];
    [reflexivity|].
  rewrite IH, !append_assoc. reflexivity.
Qed.

(** X10.  [Render] goes through [all_obj_] front to back: a document
    whose [all_obj_] is one sequence followed by another renders as the
    document of the first sequence followed by the document of the second,
    on the same stream; what [objects_] holds plays no part. *)
Theorem Render_splits (D : Double)
  (l1 l2 objs objs1 objs2 : list Object.t) (out : ostream) :
  forall sigma k,
    Document.Render
      {| Document.all_obj_ := l1 ++ l2; Document.objects_ := objs |} out sigma k
    = (Document.Render
         {| Document.all_obj_ := l1; Document.objects_ := objs1 |} out
         >> Document.Render
              {| Document.all_obj_ := l2; Document.objects_ := objs2 |} out)
        sigma k.
Proof.
  intros sigma k. unfold Document.Render. cbn [Document.all_obj_].
  rewrite (RenderAll_writes (l1 ++ l2) out sigma k).
  rewrite (writes_seq _ _ _ _ _ (RenderAll_writes l1 out)
             (RenderAll_writes l2 out) sigma k).
  now rewrite child_lines_app.
Qed.

Lemma run_doc (D : Double) (cs : list Client.call) :
  forall w : Client.World,
    Document.all_obj_ (Client.doc (Client.run cs w))
    = Document.all_obj_ (Client.doc w)
    /\ Document.objects_ (Client.doc (Client.run cs w))
       = (Document.objects_ (Client.doc w) ++ Client.added cs)%list.
Proof.
  induction cs as [|c cs IH]; intros w.
  - cbn. now rewrite app_nil_r.
  - change (Client.run (c :: cs) w) with (Client.run cs (Client.exec c w)).
    destruct (IH (Client.exec c w)) as [H1 H2]. rewrite H1, H2.
    destruct c as [obj|out];
      cbn [Client.exec Client.doc Client.added Document.Add
             Document.all_obj_ Document.objects_].
    + split; [reflexivity|]. now rewrite <- app_assoc.
    + split; reflexivity.
Qed.

Lemma run_sinks (D : Double) (cs : list Client.call) :
  forall w : Client.World,
    Document.all_obj_ (Client.doc w) = [] ->
    forall k, Client.sinks (Client.run cs w) k = Client.sinks w k.
Proof.
  induction cs as [|c cs IH]; intros w Hw k; [reflexivity|].
  change (Client.run (c :: cs) w) with (Client.run cs (Client.exec c w)).
  rewrite IH.
  - destruct c as [obj|out]; cbn [Client.exec Client.sinks]; [reflexivity|].
    unfold Document.Render. rewrite Hw. reflexivity.
  - destruct c as [obj|out]; cbn [Client.exec Client.doc Document.Add
                                    Document.all_obj_]; exact Hw.
Qed.

(** X11.  Whatever sequence of [Add] and [Render] calls a caller issues,
    [all_obj_] stays what it was and [objects_] grows by the added objects
    in the order of the calls, renders in between changing neither; on a
    new document every stream therefore stays empty. *)
Theorem run_keeps_all_obj (D : Double) (cs : list Client.call) :
  (forall w : Client.World,
      Document.all_obj_ (Client.doc (Client.run cs w))
      = Document.all_obj_ (Client.doc w)
      /\ Document.objects_ (Client.doc (Client.run cs w))
         = (Document.objects_ (Client.doc w) ++ Client.added cs)%list)
  /\ forall k, Client.sinks (Client.run cs Client.start) k = "".
Proof.
  split; [apply run_doc|].
  intros k. rewrite run_sinks; reflexivity.
Qed.
